(** * The account list store of the admin frontend

    A shallow embedding of [frontend/src/stores/accounts.ts] (the Pinia store
    [useAccountsStore]) and the properties of its operations.

    The store holds two refs, [accounts] and [isLoading], and eight
    asynchronous operations.  Each operation is a piece of synchronous code
    cut by [await]s on promises returned by the [accountsApi] client.  The
    embedding keeps that shape: an operation is a function from the store to a
    resumption tree whose nodes are the points at which the operation is
    suspended on the network. *)

From Stdlib Require Import ZArith.
From stdpp Require Import base strings list.

(** ** Data *)

(** Modelled from the spec: the type [AdminAccount] is declared in
    [@/types/api], which is not part of the sources at hand.  The store reads
    [id] and writes [disabled], [cooldown_seconds] and [cooldown_reason];
    whatever else a record carries is kept in [other_fields] and never
    looked at.  [cooldown_seconds] is a whole number of seconds; the store
    only ever stores the constant 0 in it. *)
Record AdminAccount : Type := {
  id : string;
  disabled : bool;
  cooldown_seconds : Z;
  cooldown_reason : string;
  other_fields : list (string * string)
}.

(** Modelled from the spec: [AccountConfigItem] is declared in [@/types/api];
    the store hands the items to the client without inspecting them. *)
Inductive AccountConfigItem : Type :=
| ConfigItem (fields : list (string * string)).

(** Modelled from the spec: what [accountsApi.list()] resolves with is either
    a bare array of records or an envelope object whose [accounts] field may
    be missing.  An answer that is neither ([null], [undefined]), on which
    reading [response.accounts] throws, is outside this type. *)
Inductive ListResponse : Type :=
| BareArray (records : list AdminAccount)
| Envelope (accounts_field : option (list AdminAccount)).

(** The two refs of the store. *)
Record Store : Type := {
  accounts : list AdminAccount;
  isLoading : bool
}.

(** Field assignments on a record, [account.f = v]. *)
Definition assign_disabled (v : bool) (account : AdminAccount) : AdminAccount :=
  {| id := id account; disabled := v;
     cooldown_seconds := cooldown_seconds account;
     cooldown_reason := cooldown_reason account;
     other_fields := other_fields account |}.

Definition assign_cooldown_seconds (v : Z) (account : AdminAccount) : AdminAccount :=
  {| id := id account; disabled := disabled account;
     cooldown_seconds := v;
     cooldown_reason := cooldown_reason account;
     other_fields := other_fields account |}.

Definition assign_cooldown_reason (v : string) (account : AdminAccount) : AdminAccount :=
  {| id := id account; disabled := disabled account;
     cooldown_seconds := cooldown_seconds account;
     cooldown_reason := v;
     other_fields := other_fields account |}.

(** ** The API client and promises *)

(** What a rejected promise carries. *)
Definition Error : Type := string.

(** How a promise settles. *)
Inductive Settled (X : Type) : Type :=
| Fulfilled (value : X)
| Rejected (reason : Error).
Arguments Fulfilled {X} value.
Arguments Rejected {X} reason.

(** The calls of the [accountsApi] client, indexed by what their promise
    resolves with.  Only the value of [list] is ever used by the store. *)
Module accountsApi.
Inductive call : Type -> Type :=
| list : call ListResponse
| delete (accountId : string) : call unit
| disable (accountId : string) : call unit
| enable (accountId : string) : call unit
| bulkEnable (accountIds : Datatypes.list string) : call unit
| bulkDisable (accountIds : Datatypes.list string) : call unit
| updateConfig (newAccounts : Datatypes.list AccountConfigItem) : call unit.
End accountsApi.

(** A call with its result type forgotten, for the record of what was sent. *)
Inductive Request : Type :=
| Req {X : Type} (c : accountsApi.call X).

(** ** Asynchronous operations *)

(** An operation that has been started is either settled, with the store as it
    leaves it, or suspended: on one call ([await c]) or on a batch of calls
    that were all sent before suspending ([await Promise.all(cs)]).  A
    suspended operation records the store as it stood when the calls went
    out, and resumes from the answer and from the store as it stands then. *)
Inductive Async (R : Type) : Type :=
| Settle (outcome : Settled R) (st : Store)
| Await {X : Type} (c : accountsApi.call X) (st : Store)
    (resume : Settled X -> Store -> Async R)
| AwaitAll {X : Type} (cs : list (accountsApi.call X)) (st : Store)
    (resume : Settled (list X) -> Store -> Async R).
Arguments Settle {R} outcome st.
Arguments Await {R X} c st resume.
Arguments AwaitAll {R X} cs st resume.

(** An [async function] body: started in a store, it runs to its first
    suspension or to its end. *)
Definition Op (R : Type) : Type := Store -> Async R.

Definition ret {R} (x : R) : Op R := fun st => Settle (Fulfilled x) st.

(** Sequencing: a rejection skips the rest. *)
Fixpoint bindA {A B} (m : Async A) (f : A -> Op B) : Async B :=
  match m with
  | Settle (Fulfilled a) st => f a st
  | Settle (Rejected e) st => Settle (Rejected e) st
  | Await c st resume => Await c st (fun o st' => bindA (resume o st') f)
  | AwaitAll cs st resume => AwaitAll cs st (fun o st' => bindA (resume o st') f)
  end.

Definition bind {A B} (m : Op A) (f : A -> Op B) : Op B :=
  fun st => bindA (m st) f.

Notation "x <- m ;; k" := (bind m (fun x => k))
  (at level 100, m at next level, right associativity).
Notation "m ;; k" := (bind m (fun _ => k))
  (at level 100, right associativity).

(** [await c]: send the call, suspend, and continue with the value, or throw
    the reason of the rejection. *)
Definition await {X} (c : accountsApi.call X) : Op X :=
  fun st => Await c st (fun o st' => Settle o st').

(** [await Promise.all(cs)], the calls [cs] having been sent one after the
    other without suspending in between. *)
Definition await_all {X} (cs : list (accountsApi.call X)) : Op (list X) :=
  fun st => AwaitAll cs st (fun o st' => Settle o st').

(** [try { body } finally { cleanup }] with a synchronous cleanup: the cleanup
    runs when the body ends, whichever way, and the body's outcome stands. *)
Fixpoint finallyA {A} (m : Async A) (cleanup : Store -> Store) : Async A :=
  match m with
  | Settle o st => Settle o (cleanup st)
  | Await c st resume => Await c st (fun o st' => finallyA (resume o st') cleanup)
  | AwaitAll cs st resume =>
      AwaitAll cs st (fun o st' => finallyA (resume o st') cleanup)
  end.

Definition try_finally {A} (body : Op A) (cleanup : Store -> Store) : Op A :=
  fun st => finallyA (body st) cleanup.

(** Writes to the refs. *)
Definition write_isLoading (v : bool) (st : Store) : Store :=
  {| accounts := accounts st; isLoading := v |}.

Definition write_accounts (v : list AdminAccount) (st : Store) : Store :=
  {| accounts := v; isLoading := isLoading st |}.

Definition set_isLoading (v : bool) : Op unit :=
  fun st => Settle (Fulfilled tt) (write_isLoading v st).

Definition set_accounts (v : list AdminAccount) : Op unit :=
  fun st => Settle (Fulfilled tt) (write_accounts v st).

(** [accounts.value = f(accounts.value)]. *)
Definition update_accounts (f : list AdminAccount -> list AdminAccount) : Op unit :=
  fun st => Settle (Fulfilled tt) (write_accounts (f (accounts st)) st).

(** [const account = accounts.value.find(acc => acc.id === accountId)]
    followed by [if (account) { assignments to fields of account }].  [find]
    returns the first element that passes the test, and the assignments change
    that object where it sits in the array.  The records of the array are
    distinct objects, as an API client that decodes a response produces
    them, so the assignment shows at that one position.  (One object held at
    two positions would show it at both; the two positions would then carry
    the same id.) *)
Definition find_and_assign (accountId : string)
    (assignments : AdminAccount -> AdminAccount)
    (l : list AdminAccount) : list AdminAccount :=
  match list_find (fun acc => id acc = accountId) l with
  | Some (i, account) => <[i := assignments account]> l
  | None => l
  end.

(** [ids.forEach(callback)] with a synchronous callback. *)
Fixpoint forEach {A} (l : list A) (callback : A -> Op unit) : Op unit :=
  match l with
  | [] => ret tt
  | x :: rest => callback x ;; forEach rest callback
  end.

(** ** The operations of the store *)

Definition loadAccounts : Op unit :=
  set_isLoading true ;;
  try_finally
    (response <- await accountsApi.list ;;
     set_accounts
       match response with
       | BareArray records => records
       | Envelope accounts_field => default [] accounts_field
       end)
    (write_isLoading false).

Definition deleteAccount (accountId : string) : Op unit :=
  update_accounts (filter (fun acc => id acc ≠ accountId)) ;;
  await (accountsApi.delete accountId).

Definition disableAccount (accountId : string) : Op unit :=
  await (accountsApi.disable accountId) ;;
  update_accounts (find_and_assign accountId (assign_disabled true)).

Definition enable_assignments (account : AdminAccount) : AdminAccount :=
  assign_cooldown_reason ""
    (assign_cooldown_seconds 0%Z (assign_disabled false account)).

Definition enableAccount (accountId : string) : Op unit :=
  await (accountsApi.enable accountId) ;;
  update_accounts (find_and_assign accountId enable_assignments).

Definition bulkEnable (accountIds : list string) : Op unit :=
  await (accountsApi.bulkEnable accountIds) ;;
  forEach accountIds (fun id' =>
    update_accounts (find_and_assign id' enable_assignments)).

Definition bulkDisable (accountIds : list string) : Op unit :=
  await (accountsApi.bulkDisable accountIds) ;;
  forEach accountIds (fun id' =>
    update_accounts (find_and_assign id' (assign_disabled true))).

Definition bulkDelete (accountIds : list string) : Op unit :=
  update_accounts (filter (fun acc => id acc ∉ accountIds)) ;;
  await_all (map accountsApi.delete accountIds) ;;
  ret tt.

Definition updateConfig (newAccounts : list AccountConfigItem) : Op unit :=
  await (accountsApi.updateConfig newAccounts) ;;
  loadAccounts.

(** ** Running an operation *)

(** The network: how the promise of each call settles.  The calls an operation
    sends are numbered in the order in which they go out, so that two calls
    with the same arguments may be answered differently. *)
Definition Network : Type := nat -> forall X, accountsApi.call X -> Settled X.

(** [Promise.all]: fulfilled with all the values when every promise is
    fulfilled, rejected as soon as one is rejected.  Settling times are not
    part of the model; the leftmost rejected promise gives the reason. *)
Fixpoint promise_all {X} (settled : list (Settled X)) : Settled (list X) :=
  match settled with
  | [] => Fulfilled []
  | Fulfilled x :: rest =>
      match promise_all rest with
      | Fulfilled xs => Fulfilled (x :: xs)
      | Rejected e => Rejected e
      end
  | Rejected e :: _ => Rejected e
  end.

(** A call that went out, and the store as it stood at that moment. *)
Record Sent : Type := {
  request : Request;
  store_then : Store
}.

(** What is observed of an operation run to its end. *)
Record Run (R : Type) : Type := {
  outcome : Settled R;
  final : Store;
  sent : list Sent
}.
Arguments outcome {R} r.
Arguments final {R} r.
Arguments sent {R} r.

(** Run a started operation to its end, no other operation touching the store
    while it is suspended; [n] calls have gone out before. *)
Fixpoint run {R} (net : Network) (n : nat) (m : Async R) : Run R :=
  match m with
  | Settle o st => {| outcome := o; final := st; sent := [] |}
  | Await c st resume =>
      let r := run net (S n) (resume (net n _ c) st) in
      {| outcome := outcome r; final := final r;
         sent := {| request := Req c; store_then := st |} :: sent r |}
  | AwaitAll cs st resume =>
      let answers := imap (fun i c => net (n + i) _ c) cs in
      let r := run net (n + length cs) (resume (promise_all answers) st) in
      {| outcome := outcome r; final := final r;
         sent := map (fun c => {| request := Req c; store_then := st |}) cs
                   ++ sent r |}
  end.

(** An operation called on a store, as the first thing that happens. *)
Definition exec {R} (net : Network) (op : Op R) (st : Store) : Run R :=
  run net 0 (op st).

(** ** Notions used in the statements *)

(** At most one record per id. *)
Definition unique_ids (l : list AdminAccount) : Prop := NoDup (id <$> l).

(** The id occurs in the list. *)
Definition present (accountId : string) (l : list AdminAccount) : Prop :=
  accountId ∈ id <$> l.

(** The id a delete request is for. *)
Definition deleted_id (s : Sent) : option string :=
  match request s with
  | Req (accountsApi.delete accountId) => Some accountId
  | Req _ => None
  end.

(** The sequence a response of [list] stands for, in the words of the
    specification: the bare sequence itself, or the [accounts] field of the
    envelope, the empty sequence if the field is absent. *)
Definition sequence_of (response : ListResponse) : list AdminAccount :=
  match response with
  | BareArray records => records
  | Envelope (Some records) => records
  | Envelope None => []
  end.

(** [r'] is [r] up to the value of [disabled]. *)
Definition same_but_disabled (r r' : AdminAccount) : Prop :=
  id r' = id r ∧
  cooldown_seconds r' = cooldown_seconds r ∧
  cooldown_reason r' = cooldown_reason r ∧
  other_fields r' = other_fields r.

(** A network whose every call is fulfilled, [list] with the given response. *)
Definition all_fulfilled (response : ListResponse) : Network :=
  fun _ X c =>
    match c in accountsApi.call T return Settled T with
    | accountsApi.list => Fulfilled response
    | _ => Fulfilled tt
    end.

(** A network whose every call is rejected. *)
Definition all_rejected (reason : Error) : Network :=
  fun _ X c => Rejected reason.

(** A network that answers call number [k] with a rejection and fulfils the
    others. *)
Definition rejected_at (k : nat) (reason : Error) (response : ListResponse) : Network :=
  fun n X c => if Nat.eqb n k then Rejected reason else all_fulfilled response n X c.

(** Records for the examples. *)
Definition account (i : string) (d : bool) (secs : Z) (why : string) : AdminAccount :=
  {| id := i; disabled := d; cooldown_seconds := secs; cooldown_reason := why;
     other_fields := [] |}.

Definition empty_store : Store := {| accounts := []; isLoading := false |}.

(** Two records that share an id, as a server may list them. *)
Definition twins : list AdminAccount :=
  [account "x" false 0 ""; account "x" true 30 "rate_limit"].

Definition twins_store : Store := {| accounts := twins; isLoading := false |}.

(** One record in cooldown. *)
Definition cooling_store : Store :=
  {| accounts := [account "1" false 30 "rate_limit"]; isLoading := false |}.

(** [after] is [before] as the assignments of [enableAccount] leave it. *)
Definition enabled_version (before after : AdminAccount) : Prop :=
  id after = id before ∧
  disabled after = false ∧
  cooldown_seconds after = 0%Z ∧
  cooldown_reason after = "" ∧
  other_fields after = other_fields before.

(** [after] is [before] as the assignment of [disableAccount] leaves it. *)
Definition disabled_version (before after : AdminAccount) : Prop :=
  id after = id before ∧
  disabled after = true ∧
  cooldown_seconds after = cooldown_seconds before ∧
  cooldown_reason after = cooldown_reason before ∧
  other_fields after = other_fields before.

(** A run that began in [st] never had [isLoading] differ from its value in
    [st]: not when a call went out, not at the end. *)
Definition flag_untouched {R} (st : Store) (r : Run R) : Prop :=
  isLoading (final r) = isLoading st ∧
  Forall (fun s => isLoading (store_then s) = isLoading st) (sent r).

(** A network on which no call is ever rejected. *)
Definition never_rejects (net : Network) : Prop :=
  ∀ n X (c : accountsApi.call X), ∃ v, net n X c = Fulfilled v.

(** A caller's loop over the singular operations,
    [for (const x of l) await op(x)]: it stops at the first rejection. *)
Fixpoint each_in_turn {A} (l : list A) (op : A -> Op unit) : Op unit :=
  match l with
  | [] => ret tt
  | x :: rest => op x ;; each_in_turn rest op
  end.

(** Three records, two of them in cooldown. *)
Definition three_store : Store :=
  {| accounts := [account "a" true 30 "rate_limit"; account "b" false 0 "";
                  account "c" true 5 "quota"];
     isLoading := false |}.

(** * Properties *)

(** ** How each operation runs *)

Section Runs.
Variable net : Network.
Variable n : nat.
Variable st : Store.

(** [loadAccounts] sends one call, with the flag raised, and ends with the
    flag lowered whatever the answer. *)
Lemma run_loadAccounts :
  run net n (loadAccounts st) =
  {| outcome := match net n _ accountsApi.list with
                | Fulfilled _ => Fulfilled tt
                | Rejected e => Rejected e
                end;
     final := match net n _ accountsApi.list with
              | Fulfilled response =>
                  {| accounts := sequence_of response; isLoading := false |}
              | Rejected _ =>
                  {| accounts := accounts st; isLoading := false |}
              end;
     sent := [ {| request := Req accountsApi.list;
                  store_then := write_isLoading true st |} ] |}.
Proof.
  cbn. destruct (net n ListResponse accountsApi.list) as [[records|[records|]]|e];
    reflexivity.
Qed.

(** An operation of the shape "await one call, then change the list". *)
Lemma run_await_then_update {X} (c : accountsApi.call X)
    (f : list AdminAccount -> list AdminAccount) :
  run net n ((await c ;; update_accounts f) st) =
  {| outcome := match net n _ c with
                | Fulfilled _ => Fulfilled tt
                | Rejected e => Rejected e
                end;
     final := match net n _ c with
              | Fulfilled _ => write_accounts (f (accounts st)) st
              | Rejected _ => st
              end;
     sent := [ {| request := Req c; store_then := st |} ] |}.
Proof. cbn. destruct (net n X c); reflexivity. Qed.

(** [forEach] of list updates is one list update, the fold of the steps. *)
Lemma forEach_update {A} (ids : list A)
    (step : A -> list AdminAccount -> list AdminAccount) (st0 : Store) :
  forEach ids (fun x => update_accounts (step x)) st0 =
  Settle (Fulfilled tt)
    (write_accounts (foldl (fun l x => step x l) (accounts st0) ids) st0).
Proof.
  revert st0. induction ids as [|x ids IH]; intros [l b]; [reflexivity|].
  cbn. unfold bind in IH. cbn in IH. rewrite IH. reflexivity.
Qed.

Lemma run_await_then_forEach {X} (c : accountsApi.call X) {A} (ids : list A)
    (step : A -> list AdminAccount -> list AdminAccount) :
  run net n ((await c ;; forEach ids (fun x => update_accounts (step x))) st) =
  {| outcome := match net n _ c with
                | Fulfilled _ => Fulfilled tt
                | Rejected e => Rejected e
                end;
     final := match net n _ c with
              | Fulfilled _ =>
                  write_accounts (foldl (fun l x => step x l) (accounts st) ids) st
              | Rejected _ => st
              end;
     sent := [ {| request := Req c; store_then := st |} ] |}.
Proof.
  cbn. destruct (net n X c); [|reflexivity].
  cbn. rewrite forEach_update. reflexivity.
Qed.

Lemma run_deleteAccount (accountId : string) :
  run net n (deleteAccount accountId st) =
  let removed :=
    write_accounts (filter (fun acc => id acc ≠ accountId) (accounts st)) st in
  {| outcome := net n _ (accountsApi.delete accountId);
     final := removed;
     sent := [ {| request := Req (accountsApi.delete accountId);
                  store_then := removed |} ] |}.
Proof. reflexivity. Qed.

(** [bulkDelete] sends its calls from the filtered store and ends there. *)
Lemma run_bulkDelete (accountIds : list string) :
  run net n (bulkDelete accountIds st) =
  let removed :=
    write_accounts (filter (fun acc => id acc ∉ accountIds) (accounts st)) st in
  {| outcome :=
       match promise_all (imap (fun i c => net (n + i) _ c)
                            (map accountsApi.delete accountIds)) with
       | Fulfilled _ => Fulfilled tt
       | Rejected e => Rejected e
       end;
     final := removed;
     sent := map (fun a => {| request := Req (accountsApi.delete a);
                              store_then := removed |}) accountIds |}.
Proof.
  cbn. destruct (promise_all _); cbn; rewrite app_nil_r, map_map; reflexivity.
Qed.

(** [updateConfig] is its call followed, if fulfilled, by [loadAccounts]. *)
Lemma run_updateConfig (newAccounts : list AccountConfigItem) :
  run net n (updateConfig newAccounts st) =
  let sent_first := {| request := Req (accountsApi.updateConfig newAccounts);
                       store_then := st |} in
  match net n _ (accountsApi.updateConfig newAccounts) with
  | Fulfilled _ =>
      let reload := run net (S n) (loadAccounts st) in
      {| outcome := outcome reload; final := final reload;
         sent := sent_first :: sent reload |}
  | Rejected e =>
      {| outcome := Rejected e; final := st; sent := [sent_first] |}
  end.
Proof.
  cbn. destruct (net n unit (accountsApi.updateConfig newAccounts)); reflexivity.
Qed.
End Runs.

(** ** Lists of records *)

Section Lists.
Implicit Types (l : list AdminAccount) (r : AdminAccount) (a : string).

(** The lookup stops at the first record with the id. *)
Lemma find_and_assign_cons a f r l :
  find_and_assign a f (r :: l) =
  if decide (id r = a) then f r :: l else r :: find_and_assign a f l.
Proof.
  unfold find_and_assign. cbn. destruct (decide (id r = a)); [reflexivity|].
  destruct (list_find _ l) as [[i x]|]; reflexivity.
Qed.

Lemma find_and_assign_absent a f l :
  ¬ present a l -> find_and_assign a f l = l.
Proof.
  unfold present. induction l as [|r l IH]; [reflexivity|].
  rewrite fmap_cons, not_elem_of_cons. intros [Hne Hl].
  rewrite find_and_assign_cons. destruct (decide (id r = a)); [congruence|].
  by rewrite IH.
Qed.

(** Position by position, a record is left alone or, if it carries the id,
    replaced by its assigned version. *)
Lemma find_and_assign_pointwise a f l :
  Forall2 (fun r r' => r' = r ∨ (id r = a ∧ r' = f r)) l (find_and_assign a f l).
Proof.
  induction l as [|r l IH]; [constructor|].
  rewrite find_and_assign_cons. destruct (decide (id r = a)).
  - constructor; [by right|]. apply Forall2_same_length_lookup_2; [done|].
    intros i x y Hx Hy. left. congruence.
  - constructor; [by left | done].
Qed.

(** The record that [find] returns ends up assigned, where it was. *)
Lemma find_and_assign_found a f l i r :
  list_find (fun acc => id acc = a) l = Some (i, r) ->
  find_and_assign a f l !! i = Some (f r) ∧
  ∀ j, j ≠ i -> find_and_assign a f l !! j = l !! j.
Proof.
  intros Hfind. unfold find_and_assign. rewrite Hfind.
  apply list_find_Some in Hfind as (Hi & _ & _). split.
  - apply list_lookup_insert_eq. by eapply lookup_lt_Some.
  - intros j Hj. by apply list_lookup_insert_ne.
Qed.

Lemma find_and_assign_ids a f l :
  (∀ r, id (f r) = id r) -> id <$> find_and_assign a f l = id <$> l.
Proof.
  intros Hf. induction l as [|r l IH]; [reflexivity|].
  rewrite find_and_assign_cons. destruct (decide (id r = a)); cbn.
  - by rewrite Hf.
  - by rewrite IH.
Qed.

Lemma fold_find_and_assign_ids f (ids : list string) l :
  (∀ r, id (f r) = id r) ->
  id <$> foldl (fun l a => find_and_assign a f l) l ids = id <$> l.
Proof.
  intros Hf. revert l. induction ids as [|a ids IH]; intros l; [reflexivity|].
  cbn. rewrite IH. by apply find_and_assign_ids.
Qed.

Lemma fold_find_and_assign_absent f (ids : list string) l :
  Forall (fun a => ¬ present a l) ids ->
  foldl (fun l a => find_and_assign a f l) l ids = l.
Proof.
  induction 1 as [|a ids Ha _ IH]; [reflexivity|].
  cbn. by rewrite find_and_assign_absent.
Qed.

(** Filtering keeps a sublist, so it keeps ids unique. *)
Lemma unique_ids_filter (P : AdminAccount -> Prop) `{!∀ x, Decision (P x)} l :
  unique_ids l -> unique_ids (filter P l).
Proof.
  unfold unique_ids. intros Hl. eapply sublist_NoDup; [exact Hl|].
  apply fmap_sublist, sublist_filter.
Qed.

Lemma filter_id_absent a l :
  ¬ present a l -> filter (fun acc => id acc = a) l = [].
Proof.
  unfold present. induction l as [|r l IH]; [reflexivity|].
  rewrite fmap_cons, not_elem_of_cons. intros [Hne Hl].
  rewrite filter_cons. destruct (decide (id r = a)); [congruence | auto].
Qed.

(** With unique ids, at most one record carries a given id. *)
Lemma unique_ids_matching a l :
  unique_ids l -> length (filter (fun acc => id acc = a) l) ≤ 1.
Proof.
  unfold unique_ids. induction l as [|r l IH]; [cbn; lia|].
  rewrite fmap_cons, NoDup_cons. intros [Hr Hl].
  rewrite filter_cons. destruct (decide (id r = a)) as [<-|]; [|auto].
  rewrite filter_id_absent by exact Hr. cbn. lia.
Qed.

(** A filter and its complement split the list. *)
Lemma length_filter_split (P : AdminAccount -> Prop) `{!∀ x, Decision (P x)} l :
  length l = length (filter (fun x => ¬ P x) l) + length (filter P l).
Proof.
  induction l as [|r l IH]; [reflexivity|].
  rewrite !filter_cons. destruct (decide (P r)).
  - rewrite decide_False by tauto. cbn. lia.
  - rewrite decide_True by tauto. cbn. lia.
Qed.

(** A run of lookups and assignments, position by position: a record whose
    id is not among the ids is left alone, and the others move within any
    relation that the assignment respects. *)
Lemma fold_find_and_assign_pointwise f (ids : list string)
    (R : AdminAccount -> AdminAccount -> Prop) l :
  (∀ r, R r r) -> (∀ r, R r (f r)) -> (∀ x y z, R x y -> R y z -> R x z) ->
  (∀ r, id (f r) = id r) ->
  Forall2 (fun r r' => R r r' ∧ id r' = id r ∧ (id r ∉ ids -> r' = r))
    l (foldl (fun l a => find_and_assign a f l) l ids).
Proof.
  intros Hrefl Hstep Htrans Hid. revert l.
  induction ids as [|a ids IH]; intros l; cbn.
  - apply Forall_Forall2_diag, Forall_forall. auto.
  - eapply Forall2_trans;
      [|apply (find_and_assign_pointwise a f l)|apply IH].
    intros x y z [->|[Hx ->]] (Hyz & Hidz & Hframe).
    + split_and!; [done..|]. intros Hnot. apply Hframe.
      intros Hin. apply Hnot. by apply list_elem_of_further.
    + split_and!.
      * eapply Htrans; [apply Hstep | exact Hyz].
      * by rewrite Hidz, Hid.
      * intros Hnot. exfalso. apply Hnot. rewrite Hx. apply list_elem_of_here.
Qed.

(** With unique ids, the record that [find] returns is the only one with
    the id, before and after the assignment. *)
Lemma find_and_assign_only a f l i r x :
  unique_ids l ->
  list_find (fun acc => id acc = a) l = Some (i, r) ->
  x ∈ find_and_assign a f l -> id x = a -> x = f r.
Proof.
  intros Huniq Hfind Hx Hida.
  destruct (find_and_assign_found a f l i r Hfind) as [Hi Hothers].
  apply list_find_Some in Hfind as (Hli & Hr & _).
  apply list_elem_of_lookup in Hx as [j Hj].
  destruct (decide (j = i)) as [->|Hne]; [congruence|].
  rewrite Hothers in Hj by done. exfalso. apply Hne.
  apply (NoDup_lookup (id <$> l) j i a Huniq).
  - by rewrite list_lookup_fmap, Hj; cbn; rewrite Hida.
  - by rewrite list_lookup_fmap, Hli; cbn; rewrite Hr.
Qed.
End Lists.

(** ** The operations *)

(** C1.  Whatever [accountsApi.list()] answers, [loadAccounts] ends with
    [isLoading] false.  When the answer is a bare array, [accounts] is that
    array; when it is an envelope, [accounts] is its [accounts] field, or the
    empty array if the field is missing; and the operation is fulfilled.  When
    the call is rejected the rejection is passed on (and [accounts] is what it
    was). *)
Theorem loadAccounts_replaces_and_clears (net : Network) (st : Store) :
  let r := exec net loadAccounts st in
  isLoading (final r) = false ∧
  match net 0 _ accountsApi.list with
  | Fulfilled (BareArray records) =>
      outcome r = Fulfilled tt ∧ accounts (final r) = records
  | Fulfilled (Envelope (Some records)) =>
      outcome r = Fulfilled tt ∧ accounts (final r) = records
  | Fulfilled (Envelope None) =>
      outcome r = Fulfilled tt ∧ accounts (final r) = []
  | Rejected reason =>
      outcome r = Rejected reason ∧ accounts (final r) = accounts st
  end.
Proof.
  unfold exec. rewrite run_loadAccounts. cbn.
  destruct (net 0 ListResponse accountsApi.list) as [[records|[records|]]|reason];
    cbn; auto.
Qed.

(** The scenario of the specification: an envelope with one record in
    cooldown is loaded into the empty store. *)
Example loadAccounts_scenario :
  let response := Envelope (Some [account "1" false 30 "rate_limit"]) in
  let r := exec (all_fulfilled response) loadAccounts empty_store in
  length (accounts (final r)) = 1 ∧ isLoading (final r) = false.
Proof. split; reflexivity. Qed.

(** C2.  [deleteAccount] sends its delete call from a store that no longer
    holds any record with the id, and it ends in that same store with the
    outcome of the call: when the call is rejected, the rejection is passed on
    and the records stay removed. *)
Theorem deleteAccount_removes_before_call (net : Network) (st : Store)
    (accountId : string) :
  let r := exec net (deleteAccount accountId) st in
  let kept := filter (fun acc => id acc ≠ accountId) (accounts st) in
  sent r = [ {| request := Req (accountsApi.delete accountId);
                store_then := write_accounts kept st |} ] ∧
  ¬ present accountId kept ∧
  final r = write_accounts kept st ∧
  outcome r = net 0 _ (accountsApi.delete accountId) ∧
  (∀ reason, net 0 _ (accountsApi.delete accountId) = Rejected reason ->
     outcome r = Rejected reason ∧ ¬ present accountId (accounts (final r))).
Proof.
  assert (Hgone : ¬ present accountId
            (filter (fun acc => id acc ≠ accountId) (accounts st))).
  { unfold present. rewrite list_elem_of_fmap. intros (acc & -> & Hacc).
    apply list_elem_of_filter in Hacc as [Hne _]. by apply Hne. }
  unfold exec. rewrite run_deleteAccount. cbn. split_and!; try done.
Qed.

(** A rejected delete: the record is gone all the same. *)
Example deleteAccount_rejected :
  let st := {| accounts := [account "1" false 0 ""; account "2" false 0 ""];
               isLoading := false |} in
  let r := exec (all_rejected "503") (deleteAccount "1") st in
  outcome r = Rejected "503" ∧ accounts (final r) = [account "2" false 0 ""].
Proof. split; reflexivity. Qed.

(** C3.  [disableAccount] and [enableAccount] send their call from the store
    as they found it.  When the call is rejected they pass the rejection on
    and leave the store as it was; the fields are assigned only when the call
    is fulfilled. *)
Theorem disable_enable_call_first (net : Network) (st : Store)
    (accountId : string) :
  let d := exec net (disableAccount accountId) st in
  let e := exec net (enableAccount accountId) st in
  sent d = [ {| request := Req (accountsApi.disable accountId); store_then := st |} ] ∧
  sent e = [ {| request := Req (accountsApi.enable accountId); store_then := st |} ] ∧
  match net 0 _ (accountsApi.disable accountId) with
  | Rejected reason => outcome d = Rejected reason ∧ final d = st
  | Fulfilled _ =>
      outcome d = Fulfilled tt ∧
      final d = write_accounts
                  (find_and_assign accountId (assign_disabled true) (accounts st)) st
  end ∧
  match net 0 _ (accountsApi.enable accountId) with
  | Rejected reason => outcome e = Rejected reason ∧ final e = st
  | Fulfilled _ =>
      outcome e = Fulfilled tt ∧
      final e = write_accounts
                  (find_and_assign accountId enable_assignments (accounts st)) st
  end.
Proof.
  unfold exec, disableAccount, enableAccount. rewrite !run_await_then_update. cbn.
  split_and!; try reflexivity.
  - destruct (net 0 unit (accountsApi.disable accountId)); done.
  - destruct (net 0 unit (accountsApi.enable accountId)); done.
Qed.

(** A rejected disable and a rejected enable on a record that is there. *)
Example disable_enable_rejected :
  let st := {| accounts := [account "1" false 30 "rate_limit"];
               isLoading := false |} in
  final (exec (all_rejected "500") (disableAccount "1") st) = st ∧
  final (exec (all_rejected "500") (enableAccount "1") st) = st.
Proof. split; reflexivity. Qed.

(** C4, as the code has it.  [deleteAccount] removes exactly the records whose
    id matches, all of them, and keeps the others in their order; that is at
    most one record when the list holds at most one record per id. *)
Theorem deleteAccount_removes_matching (net : Network) (st : Store)
    (accountId : string) :
  let r := exec net (deleteAccount accountId) st in
  (∀ acc, acc ∈ accounts (final r) ↔ acc ∈ accounts st ∧ id acc ≠ accountId) ∧
  accounts (final r) `sublist_of` accounts st ∧
  length (accounts st) =
    length (accounts (final r))
    + length (filter (fun acc => id acc = accountId) (accounts st)) ∧
  (unique_ids (accounts st) ->
     length (accounts st) ≤ length (accounts (final r)) + 1).
Proof.
  unfold exec. rewrite run_deleteAccount. cbn.
  pose proof (length_filter_split (fun acc => id acc = accountId) (accounts st))
    as Hsplit.
  split_and!.
  - intros acc. rewrite list_elem_of_filter. tauto.
  - apply sublist_filter.
  - exact Hsplit.
  - intros Huniq. pose proof (unique_ids_matching accountId _ Huniq). lia.
Qed.

(** C4 as stated fails: a list loaded from the server with two records under
    one id loses both to a single [deleteAccount]. *)
Lemma deleteAccount_removes_two :
  accounts (final (exec (all_fulfilled (BareArray twins)) loadAccounts empty_store))
    = twins ∧
  length twins = 2 ∧
  accounts (final (exec (all_fulfilled (BareArray twins)) (deleteAccount "x")
                     twins_store)) = [].
Proof. split_and!; reflexivity. Qed.

(** C5, as the code has it.  From a list with unique ids, every operation
    that edits the list in place or filters it ends in a list with unique ids.
    [loadAccounts] and [updateConfig] install what the server sent as it
    comes: they end in a list with unique ids exactly when the sequence they
    installed has unique ids (or when no sequence was installed). *)
Theorem unique_ids_preserved (net : Network) (st : Store) :
  unique_ids (accounts st) ->
  (∀ a, unique_ids (accounts (final (exec net (deleteAccount a) st)))) ∧
  (∀ a, unique_ids (accounts (final (exec net (disableAccount a) st)))) ∧
  (∀ a, unique_ids (accounts (final (exec net (enableAccount a) st)))) ∧
  (∀ ids, unique_ids (accounts (final (exec net (bulkEnable ids) st)))) ∧
  (∀ ids, unique_ids (accounts (final (exec net (bulkDisable ids) st)))) ∧
  (∀ ids, unique_ids (accounts (final (exec net (bulkDelete ids) st)))) ∧
  (unique_ids (accounts (final (exec net loadAccounts st))) ↔
     match net 0 _ accountsApi.list with
     | Fulfilled response => unique_ids (sequence_of response)
     | Rejected _ => True
     end) ∧
  (∀ items,
     unique_ids (accounts (final (exec net (updateConfig items) st))) ↔
     match net 0 _ (accountsApi.updateConfig items), net 1 _ accountsApi.list with
     | Fulfilled _, Fulfilled response => unique_ids (sequence_of response)
     | _, _ => True
     end).
Proof.
  intros Huniq. unfold exec. split_and!.
  - intros a. rewrite run_deleteAccount. cbn. by apply unique_ids_filter.
  - intros a. unfold disableAccount. rewrite run_await_then_update. cbn.
    destruct (net 0 unit _); [|done]. cbn. unfold unique_ids.
    by rewrite find_and_assign_ids.
  - intros a. unfold enableAccount. rewrite run_await_then_update. cbn.
    destruct (net 0 unit _); [|done]. cbn. unfold unique_ids.
    by rewrite find_and_assign_ids.
  - intros ids. unfold bulkEnable. rewrite run_await_then_forEach. cbn.
    destruct (net 0 unit _); [|done]. cbn. unfold unique_ids.
    by rewrite fold_find_and_assign_ids.
  - intros ids. unfold bulkDisable. rewrite run_await_then_forEach. cbn.
    destruct (net 0 unit _); [|done]. cbn. unfold unique_ids.
    by rewrite fold_find_and_assign_ids.
  - intros ids. rewrite run_bulkDelete. cbn. by apply unique_ids_filter.
  - rewrite run_loadAccounts. cbn.
    destruct (net 0 ListResponse accountsApi.list); cbn; tauto.
  - intros items. rewrite run_updateConfig. cbn zeta.
    destruct (net 0 unit (accountsApi.updateConfig items)); [|cbn; tauto].
    rewrite run_loadAccounts. cbn.
    destruct (net 1 ListResponse accountsApi.list); cbn; tauto.
Qed.

Lemma unique_ids_preserved_witness :
  unique_ids (accounts three_store) ∧
  unique_ids
    (accounts (final (exec (all_rejected "offline") (deleteAccount "b")
                        three_store))) ∧
  unique_ids
    (accounts (final (exec (all_fulfilled (BareArray [])) (bulkEnable ["c"; "a"; "c"])
                        three_store))) ∧
  unique_ids
    (accounts (final (exec (all_fulfilled (BareArray (accounts three_store)))
                        loadAccounts cooling_store))).
Proof.
  assert (Huniq : unique_ids (accounts three_store)).
  { unfold unique_ids. apply (bool_decide_unpack _). by vm_compute. }
  assert (Hcool : unique_ids (accounts cooling_store)).
  { unfold unique_ids. apply (bool_decide_unpack _). by vm_compute. }
  pose proof (unique_ids_preserved (all_rejected "offline") three_store Huniq)
    as (Hdelete & _).
  pose proof (unique_ids_preserved (all_fulfilled (BareArray [])) three_store Huniq)
    as (_ & _ & _ & Hbulk & _).
  pose proof (unique_ids_preserved (all_fulfilled (BareArray (accounts three_store)))
                cooling_store Hcool)
    as (_ & _ & _ & _ & _ & _ & Hload & _).
  split_and!; [exact Huniq | apply Hdelete | apply Hbulk | apply Hload; exact Huniq].
Defined.

(** C5 as stated fails: [loadAccounts] starts from the empty list, whose ids
    are unique, and installs the two records the server sent under one id. *)
Lemma loadAccounts_installs_duplicates :
  unique_ids (accounts empty_store) ∧
  ¬ unique_ids
      (accounts (final (exec (all_fulfilled (BareArray twins)) loadAccounts
                          empty_store))).
Proof.
  split.
  - unfold unique_ids. cbn. apply NoDup_nil_2.
  - unfold unique_ids. cbn. rewrite NoDup_cons. intros [Hx _].
    apply Hx. apply list_elem_of_here.
Qed.

(** C6, as the code has it.  When the list holds a record with the id and the
    enable call is fulfilled, [enableAccount] is fulfilled and the record it
    looked up (the first with the id) sits where it was with [disabled]
    false, [cooldown_seconds] 0 and [cooldown_reason] empty, its other fields
    as before; it is still what a lookup of the id returns.  Every other
    position holds what it held, a later record with the same id included;
    with unique ids there is no such record, and the one assigned is the only
    record with the id. *)
Theorem enableAccount_clears_cooldown (net : Network) (st : Store)
    (accountId : string) (v : unit) :
  present accountId (accounts st) ->
  net 0 _ (accountsApi.enable accountId) = Fulfilled v ->
  let r := exec net (enableAccount accountId) st in
  outcome r = Fulfilled tt ∧
  ∃ i before after,
    list_find (fun acc => id acc = accountId) (accounts st) = Some (i, before) ∧
    accounts (final r) !! i = Some after ∧
    id after = accountId ∧
    disabled after = false ∧
    cooldown_seconds after = 0%Z ∧
    cooldown_reason after = "" ∧
    other_fields after = other_fields before ∧
    list_find (fun acc => id acc = accountId) (accounts (final r)) = Some (i, after) ∧
    (∀ j, j ≠ i -> accounts (final r) !! j = accounts st !! j) ∧
    (unique_ids (accounts st) ->
       ∀ x, x ∈ accounts (final r) -> id x = accountId -> x = after).
Proof.
  intros Hpresent Hnet. unfold exec, enableAccount.
  rewrite run_await_then_update, Hnet. cbn. split; [reflexivity|].
  unfold present in Hpresent.
  apply list_elem_of_fmap in Hpresent as (acc & Hid & Hacc).
  destruct (list_find_elem_of (fun acc => id acc = accountId) (accounts st) acc)
    as [[i before] Hfind]; [done..|].
  exists i, before, (enable_assignments before).
  destruct (find_and_assign_found accountId enable_assignments _ i before Hfind)
    as [Hi Hothers].
  pose proof Hfind as (Hli & Hbefore & Hfirst)%list_find_Some.
  split_and!; try done.
  - apply list_find_Some. split_and!; [done..|].
    intros j y Hj Hlt. rewrite Hothers in Hj by lia. by eapply Hfirst.
  - intros Huniq x Hx Hidx. by eapply find_and_assign_only.
Qed.

Lemma enableAccount_clears_cooldown_witness :
  present "c" (accounts three_store) ∧
  ∃ after,
    accounts (final (exec (all_fulfilled (BareArray [])) (enableAccount "c")
                       three_store)) !! 2 = Some after ∧
    disabled after = false ∧
    cooldown_seconds after = 0%Z ∧
    cooldown_reason after = "".
Proof.
  assert (Hpresent : present "c" (accounts three_store)).
  { unfold present. cbn. do 2 apply list_elem_of_further. apply list_elem_of_here. }
  split; [exact Hpresent|].
  destruct (enableAccount_clears_cooldown (all_fulfilled (BareArray []))
              three_store "c" tt Hpresent eq_refl)
    as (_ & i & before & after & Hfind & Hi & _ & Hd & Hs & Hr & _).
  vm_compute in Hfind. injection Hfind as <- <-.
  exists after. auto.
Defined.

(** C6 as stated fails: the server lists two records under one id, the
    second disabled and in cooldown; [loadAccounts] installs them, a
    fulfilled [enableAccount] of the id stops at the first, and the second is
    still disabled and in cooldown afterwards. *)
Lemma enableAccount_leaves_second_in_cooldown :
  accounts (final (exec (all_fulfilled (BareArray twins)) loadAccounts empty_store))
    = twins ∧
  twins !! 1 = Some (account "x" true 30 "rate_limit") ∧
  outcome (exec (all_fulfilled (BareArray twins)) (enableAccount "x") twins_store)
    = Fulfilled tt ∧
  accounts (final (exec (all_fulfilled (BareArray twins)) (enableAccount "x")
                     twins_store)) !! 1
    = Some (account "x" true 30 "rate_limit").
Proof. split_and!; reflexivity. Qed.

(** The scenario of the specification, second half: the record loaded in
    cooldown is enabled. *)
Example enableAccount_scenario :
  let net := all_fulfilled (Envelope (Some [account "1" false 30 "rate_limit"])) in
  let loaded := final (exec net loadAccounts empty_store) in
  accounts (final (exec net (enableAccount "1") loaded)) = [account "1" false 0 ""].
Proof. reflexivity. Qed.

(** C7.  [bulkDelete] sends one delete call per entry of the id list, in the
    order of the list, each from a store that holds no record with any of the
    ids, and it ends in that store whatever the calls answer. *)
Theorem bulkDelete_removes_then_calls (net : Network) (st : Store)
    (accountIds : list string) :
  let r := exec net (bulkDelete accountIds) st in
  let kept := filter (fun acc => id acc ∉ accountIds) (accounts st) in
  Forall (fun a => ¬ present a kept) accountIds ∧
  (∀ acc, acc ∈ kept ↔ acc ∈ accounts st ∧ id acc ∉ accountIds) ∧
  Forall (fun s => accounts (store_then s) = kept) (sent r) ∧
  deleted_id <$> sent r = Some <$> accountIds ∧
  length (sent r) = length accountIds ∧
  final r = write_accounts kept st.
Proof.
  unfold exec. rewrite run_bulkDelete. cbn. split_and!.
  - apply Forall_forall. intros a Ha. unfold present.
    rewrite list_elem_of_fmap. intros (acc & -> & Hacc).
    apply list_elem_of_filter in Hacc as [Hnot _]. by apply Hnot.
  - intros acc. rewrite list_elem_of_filter. tauto.
  - apply Forall_forall. intros s Hs.
    apply list_elem_of_fmap in Hs as (a & -> & _). reflexivity.
  - rewrite <- list_fmap_compose. reflexivity.
  - apply length_map.
  - reflexivity.
Qed.

(** Three ids, three delete calls, and none of the three records left while
    the calls are out, here with every call rejected. *)
Example bulkDelete_three :
  let st := {| accounts := [account "a" false 0 ""; account "b" false 0 "";
                            account "c" true 0 ""; account "d" false 0 ""];
               isLoading := false |} in
  let r := exec (all_rejected "offline") (bulkDelete ["a"; "b"; "c"]) st in
  deleted_id <$> sent r = [Some "a"; Some "b"; Some "c"] ∧
  (accounts ∘ store_then) <$> sent r
    = [[account "d" false 0 ""]; [account "d" false 0 ""]; [account "d" false 0 ""]] ∧
  accounts (final r) = [account "d" false 0 ""].
Proof. split_and!; reflexivity. Qed.

(** C8.  On ids that no record of the list carries, [enableAccount],
    [disableAccount], [bulkEnable] and [bulkDisable] each send their one call
    and end in the store they started from, whatever the call answers. *)
Theorem absent_ids_leave_store (net : Network) (st : Store)
    (accountId : string) (accountIds : list string) :
  ¬ present accountId (accounts st) ->
  Forall (fun a => ¬ present a (accounts st)) accountIds ->
  let e := exec net (enableAccount accountId) st in
  let d := exec net (disableAccount accountId) st in
  let be := exec net (bulkEnable accountIds) st in
  let bd := exec net (bulkDisable accountIds) st in
  (final e = st ∧
   sent e = [ {| request := Req (accountsApi.enable accountId); store_then := st |} ]) ∧
  (final d = st ∧
   sent d = [ {| request := Req (accountsApi.disable accountId); store_then := st |} ]) ∧
  (final be = st ∧
   sent be = [ {| request := Req (accountsApi.bulkEnable accountIds);
                  store_then := st |} ]) ∧
  (final bd = st ∧
   sent bd = [ {| request := Req (accountsApi.bulkDisable accountIds);
                  store_then := st |} ]).
Proof.
  intros Habsent Hall. destruct st as [l b]. cbn in Habsent, Hall.
  unfold exec, enableAccount, disableAccount, bulkEnable, bulkDisable.
  rewrite !run_await_then_update, !run_await_then_forEach. cbn.
  rewrite !find_and_assign_absent by done.
  rewrite !fold_find_and_assign_absent by done.
  split_and!; try reflexivity.
  - by destruct (net 0 unit (accountsApi.enable accountId)).
  - by destruct (net 0 unit (accountsApi.disable accountId)).
  - by destruct (net 0 unit (accountsApi.bulkEnable accountIds)).
  - by destruct (net 0 unit (accountsApi.bulkDisable accountIds)).
Qed.

Lemma absent_ids_leave_store_witness :
  ¬ present "9" (accounts cooling_store) ∧
  Forall (fun a => ¬ present a (accounts cooling_store)) ["8"; "9"] ∧
  final (exec (all_fulfilled (BareArray [])) (enableAccount "9") cooling_store)
    = cooling_store ∧
  final (exec (all_fulfilled (BareArray [])) (bulkDisable ["8"; "9"]) cooling_store)
    = cooling_store.
Proof.
  assert (Habsent : ∀ a, a ≠ "1" -> ¬ present a (accounts cooling_store)).
  { intros a Ha. unfold present. cbn. rewrite list_elem_of_singleton. exact Ha. }
  assert (H9 : ¬ present "9" (accounts cooling_store)) by (apply Habsent; discriminate).
  assert (H89 : Forall (fun a => ¬ present a (accounts cooling_store)) ["8"; "9"]).
  { repeat constructor; apply Habsent; discriminate. }
  pose proof (absent_ids_leave_store (all_fulfilled (BareArray [])) cooling_store
                "9" ["8"; "9"] H9 H89) as ((He & _) & _ & _ & (Hbd & _)).
  split_and!; [exact H9 | exact H89 | exact He | exact Hbd].
Defined.

(** C9.  [updateConfig] sends the configuration from the store as it found
    it.  When that call is fulfilled it goes on exactly as [loadAccounts]
    does: one [list] call, [isLoading] false at the end, and, when the whole
    operation is fulfilled, [accounts] is the sequence the server sent in
    answer to that [list] call.  When the configuration call is rejected the
    rejection is passed on and nothing is reloaded. *)
Theorem updateConfig_reloads (net : Network) (st : Store)
    (newAccounts : list AccountConfigItem) :
  let r := exec net (updateConfig newAccounts) st in
  let first := {| request := Req (accountsApi.updateConfig newAccounts);
                  store_then := st |} in
  match net 0 _ (accountsApi.updateConfig newAccounts) with
  | Fulfilled _ =>
      let reload := run net 1 (loadAccounts st) in
      outcome r = outcome reload ∧ final r = final reload ∧
      sent r = [ first; {| request := Req accountsApi.list;
                           store_then := write_isLoading true st |} ] ∧
      isLoading (final r) = false ∧
      match net 1 _ accountsApi.list with
      | Fulfilled response =>
          outcome r = Fulfilled tt ∧ accounts (final r) = sequence_of response
      | Rejected reason =>
          outcome r = Rejected reason ∧ accounts (final r) = accounts st
      end
  | Rejected reason =>
      outcome r = Rejected reason ∧ final r = st ∧ sent r = [ first ]
  end ∧
  (outcome r = Fulfilled tt ->
     ∃ response, net 1 _ accountsApi.list = Fulfilled response ∧
                 accounts (final r) = sequence_of response).
Proof.
  unfold exec. rewrite run_updateConfig. cbn zeta.
  destruct (net 0 unit (accountsApi.updateConfig newAccounts)) as [[]|reason0].
  - rewrite run_loadAccounts. cbn.
    destruct (net 1 ListResponse accountsApi.list) as [response|reason]; cbn.
    + split_and!; try reflexivity. intros _. by exists response.
    + split_and!; try reflexivity. discriminate.
  - cbn. split_and!; try reflexivity. discriminate.
Qed.

(** The server lists other records than the local ones after the update. *)
Example updateConfig_takes_server_list :
  let fresh := [account "7" true 0 ""] in
  let r := exec (all_fulfilled (BareArray fresh)) (updateConfig [ConfigItem []])
             cooling_store in
  outcome r = Fulfilled tt ∧ final r = {| accounts := fresh; isLoading := false |}.
Proof. split; reflexivity. Qed.

(** The configuration is accepted but the reload is rejected: the rejection
    is passed on, the list is the old one and the flag is down. *)
Example updateConfig_reload_rejected :
  let r := exec (rejected_at 1 "timeout" (BareArray [])) (updateConfig [ConfigItem []])
             cooling_store in
  outcome r = Rejected "timeout" ∧ final r = cooling_store ∧ length (sent r) = 2.
Proof. split_and!; reflexivity. Qed.

(** C10.  [disableAccount] and [bulkDisable] leave [isLoading] as it was and
    change the list position by position: every record keeps its id, its
    [cooldown_seconds], its [cooldown_reason] and its other fields, and a
    record whose id is not the one given (not among those given) is left as it
    was altogether. *)
Theorem disable_frame (net : Network) (st : Store)
    (accountId : string) (accountIds : list string) :
  let d := exec net (disableAccount accountId) st in
  let bd := exec net (bulkDisable accountIds) st in
  isLoading (final d) = isLoading st ∧
  Forall2 (fun r r' => same_but_disabled r r' ∧ (id r ≠ accountId -> r' = r))
    (accounts st) (accounts (final d)) ∧
  isLoading (final bd) = isLoading st ∧
  Forall2 (fun r r' => same_but_disabled r r' ∧ (id r ∉ accountIds -> r' = r))
    (accounts st) (accounts (final bd)).
Proof.
  assert (Hsame : ∀ l : list AdminAccount, Forall2 (fun r r' => r' = r) l l).
  { intros l. apply Forall_Forall2_diag, Forall_forall. done. }
  unfold exec, disableAccount, bulkDisable.
  rewrite run_await_then_update, run_await_then_forEach. cbn. split_and!.
  - by destruct (net 0 unit (accountsApi.disable accountId)).
  - destruct (net 0 unit (accountsApi.disable accountId)); cbn.
    + eapply Forall2_impl; [apply find_and_assign_pointwise|].
      intros r r' [->|[Hid ->]].
      * split; [by repeat split | done].
      * split; [by repeat split | congruence].
    + eapply Forall2_impl; [apply Hsame|].
      intros r r' ->. split; [by repeat split | done].
  - by destruct (net 0 unit (accountsApi.bulkDisable accountIds)).
  - destruct (net 0 unit (accountsApi.bulkDisable accountIds)); cbn.
    + eapply Forall2_impl;
        [apply (fold_find_and_assign_pointwise (assign_disabled true) accountIds
                  same_but_disabled)|].
      * intros r. by repeat split.
      * intros r. by repeat split.
      * unfold same_but_disabled. intros x y z (?&?&?&?) (?&?&?&?).
        split_and!; congruence.
      * reflexivity.
      * cbn. tauto.
    + eapply Forall2_impl; [apply Hsame|].
      intros r r' ->. split; [by repeat split | done].
Qed.

(** A disabled record keeps its cooldown; enabling is what clears it. *)
Example disable_keeps_cooldown :
  accounts (final (exec (all_fulfilled (BareArray [])) (disableAccount "1")
                     cooling_store))
    = [account "1" true 30 "rate_limit"] ∧
  accounts (final (exec (all_fulfilled (BareArray [])) (bulkDisable ["1"])
                     cooling_store))
    = [account "1" true 30 "rate_limit"] ∧
  accounts (final (exec (all_fulfilled (BareArray [])) (bulkEnable ["1"])
                     cooling_store))
    = [account "1" false 0 ""].
Proof. split_and!; reflexivity. Qed.


(** * Further properties of the operations *)

(** ** Lookups after assignments *)

Section Lookups.
Implicit Types (l : list AdminAccount) (r : AdminAccount) (a b : string).
Variable f : AdminAccount -> AdminAccount.
Hypothesis f_id : ∀ r, id (f r) = id r.

(** An assignment under one id does not move what a lookup of an id returns;
    it changes the record returned when the two ids are the same. *)
Lemma list_find_find_and_assign a b l i r :
  list_find (fun acc => id acc = a) l = Some (i, r) ->
  list_find (fun acc => id acc = a) (find_and_assign b f l)
    = Some (i, if decide (b = a) then f r else r).
Proof.
  revert i. induction l as [|r0 l IH]; intros i; [discriminate|].
  rewrite find_and_assign_cons. cbn.
  destruct (decide (id r0 = a)) as [Ha|Ha].
  - intros [= <- <-]. destruct (decide (id r0 = b)) as [Hb|Hb]; cbn.
    + rewrite f_id, decide_True by done. by rewrite decide_True by congruence.
    + rewrite decide_True by done. by rewrite decide_False by congruence.
  - destruct (list_find _ l) as [[j x]|] eqn:Hfind; [|discriminate].
    cbn. intros [= <- <-].
    destruct (decide (id r0 = b)) as [Hb|Hb]; cbn.
    + rewrite f_id, decide_False by done. rewrite Hfind. cbn.
      by rewrite decide_False by congruence.
    + rewrite decide_False by done. by rewrite (IH j eq_refl).
Qed.

Hypothesis f_twice : ∀ r, f (f r) = f r.

(** After a run of lookups and assignments, a lookup returns the same
    position, and the assigned record if its id was among the ids. *)
Lemma list_find_fold_find_and_assign (ids : list string) a l i r :
  list_find (fun acc => id acc = a) l = Some (i, r) ->
  list_find (fun acc => id acc = a)
    (foldl (fun l b => find_and_assign b f l) l ids)
    = Some (i, if decide (a ∈ ids) then f r else r).
Proof.
  revert l r. induction ids as [|b ids IH]; intros l r Hfind; cbn.
  - by rewrite decide_False by apply not_elem_of_nil.
  - rewrite (IH _ _ (list_find_find_and_assign a b l i r Hfind)).
    f_equal. f_equal. destruct (decide (b = a)) as [->|Hne].
    + rewrite (decide_True (P := a ∈ a :: ids)) by apply list_elem_of_here.
      by destruct (decide (a ∈ ids)).
    + destruct (decide (a ∈ ids)) as [Hin|Hnin].
      * rewrite decide_True; [done|]. by apply list_elem_of_further.
      * rewrite decide_False; [done|].
        intros [Heq|Hin]%elem_of_cons; [by apply Hne | by apply Hnin].
Qed.

(** With unique ids every record is the one a lookup of its id returns. *)
Lemma unique_ids_list_find l i r :
  unique_ids l -> l !! i = Some r ->
  list_find (fun acc => id acc = id r) l = Some (i, r).
Proof.
  intros Huniq Hi. apply list_find_Some. split_and!; [done..|].
  intros j y Hj Hlt Hy.
  assert (j = i); [|lia].
  apply (NoDup_lookup (id <$> l) j i (id r) Huniq).
  - by rewrite list_lookup_fmap, Hj; cbn; rewrite Hy.
  - by rewrite list_lookup_fmap, Hi.
Qed.

(** With unique ids a run of lookups and assignments is a map over the
    list: the records with one of the ids are assigned, the others kept. *)
Lemma fold_find_and_assign_unique (ids : list string) l :
  unique_ids l ->
  foldl (fun l b => find_and_assign b f l) l ids
    = (fun r => if decide (id r ∈ ids) then f r else r) <$> l.
Proof.
  intros Huniq. apply list_eq. intros i. rewrite list_lookup_fmap.
  destruct (l !! i) as [r|] eqn:Hr; cbn.
  - pose proof (list_find_fold_find_and_assign ids (id r) l i r
                  (unique_ids_list_find l i r Huniq Hr)) as Hfind.
    by apply list_find_Some in Hfind as (Hi & _).
  - apply lookup_ge_None. apply lookup_ge_None in Hr.
    pose proof (f_equal length (fold_find_and_assign_ids f ids l f_id)) as Hlen.
    rewrite !length_fmap in Hlen. lia.
Qed.
End Lookups.

(** What a run of lookups and assignments does to a list, for an assignment
    [f] that keeps the id, changes nothing when repeated, and takes every
    record to a version [V] of it. *)
Lemma fold_find_and_assign_effect (f : AdminAccount -> AdminAccount)
    (V : AdminAccount -> AdminAccount -> Prop) (ids : list string)
    (l : list AdminAccount) :
  (∀ r, id (f r) = id r) -> (∀ r, f (f r) = f r) -> (∀ r, V r (f r)) ->
  let l' := foldl (fun l b => find_and_assign b f l) l ids in
  (∀ a i before,
     a ∈ ids -> list_find (fun acc => id acc = a) l = Some (i, before) ->
     ∃ after, list_find (fun acc => id acc = a) l' = Some (i, after) ∧
              V before after) ∧
  Forall2 (fun before after => id before ∉ ids -> after = before) l l' ∧
  (unique_ids l ->
   Forall2 (fun before after =>
              if decide (id before ∈ ids) then V before after else after = before)
     l l').
Proof.
  intros Hid Htwice HV. cbn zeta. split_and!.
  - intros a i before Ha Hfind. exists (f before). split; [|apply HV].
    rewrite (list_find_fold_find_and_assign f Hid Htwice ids a l i before Hfind).
    by rewrite decide_True.
  - eapply Forall2_impl;
      [apply (fold_find_and_assign_pointwise f ids (fun _ _ => True)); auto|].
    cbn. tauto.
  - intros Huniq. rewrite (fold_find_and_assign_unique f Hid Htwice ids l Huniq).
    apply Forall2_fmap_r, Forall_Forall2_diag, Forall_forall. intros r _. cbn.
    destruct (decide (id r ∈ ids)); [apply HV | done].
Qed.

(** ** The bulk operations *)

(** X1.  [bulkEnable] and [bulkDisable] send one call, carrying the whole id
    list, from the store as they found it; when the call is rejected they pass
    the rejection on and leave the store as it was. *)
Theorem bulk_call_first (net : Network) (st : Store) (accountIds : list string) :
  let be := exec net (bulkEnable accountIds) st in
  let bd := exec net (bulkDisable accountIds) st in
  sent be = [ {| request := Req (accountsApi.bulkEnable accountIds);
                 store_then := st |} ] ∧
  sent bd = [ {| request := Req (accountsApi.bulkDisable accountIds);
                 store_then := st |} ] ∧
  match net 0 _ (accountsApi.bulkEnable accountIds) with
  | Rejected reason => outcome be = Rejected reason ∧ final be = st
  | Fulfilled _ => outcome be = Fulfilled tt
  end ∧
  match net 0 _ (accountsApi.bulkDisable accountIds) with
  | Rejected reason => outcome bd = Rejected reason ∧ final bd = st
  | Fulfilled _ => outcome bd = Fulfilled tt
  end.
Proof.
  unfold exec, bulkEnable, bulkDisable. rewrite !run_await_then_forEach. cbn.
  split_and!; try reflexivity.
  - by destruct (net 0 unit (accountsApi.bulkEnable accountIds)).
  - by destruct (net 0 unit (accountsApi.bulkDisable accountIds)).
Qed.

(** X2.  When its call is fulfilled, [bulkEnable] is fulfilled and, for every
    listed id that a record carries, the record a lookup of the id returns
    stays at its position with [disabled] false and the cooldown cleared.
    Records whose id is not listed are left as they were.  With unique ids
    the list is changed record by record: enabled if the id is listed, kept
    otherwise. *)
Theorem bulkEnable_effect (net : Network) (st : Store)
    (accountIds : list string) (v : unit) :
  net 0 _ (accountsApi.bulkEnable accountIds) = Fulfilled v ->
  let r := exec net (bulkEnable accountIds) st in
  outcome r = Fulfilled tt ∧
  (∀ a i before,
     a ∈ accountIds ->
     list_find (fun acc => id acc = a) (accounts st) = Some (i, before) ->
     ∃ after,
       list_find (fun acc => id acc = a) (accounts (final r)) = Some (i, after) ∧
       enabled_version before after) ∧
  Forall2 (fun before after => id before ∉ accountIds -> after = before)
    (accounts st) (accounts (final r)) ∧
  (unique_ids (accounts st) ->
   Forall2 (fun before after =>
              if decide (id before ∈ accountIds)
              then enabled_version before after else after = before)
     (accounts st) (accounts (final r))).
Proof.
  intros Hnet. unfold exec, bulkEnable.
  rewrite run_await_then_forEach, Hnet. cbn. split; [reflexivity|].
  apply (fold_find_and_assign_effect enable_assignments enabled_version);
    [reflexivity | reflexivity | by repeat split].
Qed.

Lemma bulkEnable_effect_witness :
  ∃ after,
    list_find (fun acc => id acc = "a")
      (accounts (final (exec (all_fulfilled (BareArray [])) (bulkEnable ["c"; "a"])
                          three_store)))
      = Some (0, after) ∧
    enabled_version (account "a" true 30 "rate_limit") after.
Proof.
  destruct (bulkEnable_effect (all_fulfilled (BareArray [])) three_store
              ["c"; "a"] tt eq_refl) as (_ & Hlisted & _).
  apply (Hlisted "a" 0 (account "a" true 30 "rate_limit")).
  - apply list_elem_of_further, list_elem_of_here.
  - reflexivity.
Defined.

(** X3.  When its call is fulfilled, [bulkDisable] is fulfilled and, for
    every listed id that a record carries, the record a lookup of the id
    returns stays at its position with [disabled] true and its cooldown as it
    was.  Records whose id is not listed are left as they were.  With unique
    ids the list is changed record by record: disabled if the id is listed,
    kept otherwise. *)
Theorem bulkDisable_effect (net : Network) (st : Store)
    (accountIds : list string) (v : unit) :
  net 0 _ (accountsApi.bulkDisable accountIds) = Fulfilled v ->
  let r := exec net (bulkDisable accountIds) st in
  outcome r = Fulfilled tt ∧
  (∀ a i before,
     a ∈ accountIds ->
     list_find (fun acc => id acc = a) (accounts st) = Some (i, before) ->
     ∃ after,
       list_find (fun acc => id acc = a) (accounts (final r)) = Some (i, after) ∧
       disabled_version before after) ∧
  Forall2 (fun before after => id before ∉ accountIds -> after = before)
    (accounts st) (accounts (final r)) ∧
  (unique_ids (accounts st) ->
   Forall2 (fun before after =>
              if decide (id before ∈ accountIds)
              then disabled_version before after else after = before)
     (accounts st) (accounts (final r))).
Proof.
  intros Hnet. unfold exec, bulkDisable.
  rewrite run_await_then_forEach, Hnet. cbn. split; [reflexivity|].
  apply (fold_find_and_assign_effect (assign_disabled true) disabled_version);
    [reflexivity | reflexivity | by repeat split].
Qed.

Lemma bulkDisable_effect_witness :
  ∃ after,
    list_find (fun acc => id acc = "b")
      (accounts (final (exec (all_fulfilled (BareArray [])) (bulkDisable ["b"; "z"])
                          three_store)))
      = Some (1, after) ∧
    disabled_version (account "b" false 0 "") after.
Proof.
  destruct (bulkDisable_effect (all_fulfilled (BareArray [])) three_store
              ["b"; "z"] tt eq_refl) as (_ & Hlisted & _).
  apply (Hlisted "b" 1 (account "b" false 0 "")).
  - apply list_elem_of_here.
  - reflexivity.
Defined.

(** ** One record disabled *)

(** X4.  When the list holds a record with the id and the disable call is
    fulfilled, [disableAccount] is fulfilled and the record it looked up (the
    first with the id) sits where it was with [disabled] true and everything
    else as before; every other position holds what it held; with unique ids
    no other record carries the id. *)
Theorem disableAccount_effect (net : Network) (st : Store)
    (accountId : string) (v : unit) :
  present accountId (accounts st) ->
  net 0 _ (accountsApi.disable accountId) = Fulfilled v ->
  let r := exec net (disableAccount accountId) st in
  outcome r = Fulfilled tt ∧
  ∃ i before after,
    list_find (fun acc => id acc = accountId) (accounts st) = Some (i, before) ∧
    accounts (final r) !! i = Some after ∧
    disabled_version before after ∧
    (∀ j, j ≠ i -> accounts (final r) !! j = accounts st !! j) ∧
    (unique_ids (accounts st) ->
       ∀ x, x ∈ accounts (final r) -> id x = accountId -> x = after).
Proof.
  intros Hpresent Hnet. unfold exec, disableAccount.
  rewrite run_await_then_update, Hnet. cbn. split; [reflexivity|].
  apply list_elem_of_fmap in Hpresent as (acc & Hid & Hacc).
  destruct (list_find_elem_of (fun acc => id acc = accountId) (accounts st) acc)
    as [[i before] Hfind]; [done..|].
  exists i, before, (assign_disabled true before).
  destruct (find_and_assign_found accountId (assign_disabled true) _ i before Hfind)
    as [Hi Hothers].
  split_and!; try done.
  intros Huniq x Hx Hidx. by eapply find_and_assign_only.
Qed.

Lemma disableAccount_effect_witness :
  present "c" (accounts three_store) ∧
  ∃ after,
    accounts (final (exec (all_fulfilled (BareArray [])) (disableAccount "c")
                       three_store)) !! 2 = Some after ∧
    disabled_version (account "c" true 5 "quota") after.
Proof.
  assert (Hpresent : present "c" (accounts three_store)).
  { unfold present. cbn. do 2 apply list_elem_of_further. apply list_elem_of_here. }
  split; [exact Hpresent|].
  destruct (disableAccount_effect (all_fulfilled (BareArray [])) three_store "c" tt
              Hpresent eq_refl)
    as (_ & i & before & after & Hfind & Hi & Hafter & _).
  vm_compute in Hfind. injection Hfind as <- <-.
  exists after. auto.
Defined.

(** ** What the operations leave alone *)

(** X5.  Enabling and disabling, singly or in bulk, never add, drop, reorder
    or re-identify records: the sequence of ids of the list is the same after
    as before, whatever the network answers. *)
Theorem enable_disable_keep_ids (net : Network) (st : Store)
    (accountId : string) (accountIds : list string) :
  id <$> accounts (final (exec net (enableAccount accountId) st))
    = id <$> accounts st ∧
  id <$> accounts (final (exec net (disableAccount accountId) st))
    = id <$> accounts st ∧
  id <$> accounts (final (exec net (bulkEnable accountIds) st))
    = id <$> accounts st ∧
  id <$> accounts (final (exec net (bulkDisable accountIds) st))
    = id <$> accounts st.
Proof.
  unfold exec, enableAccount, disableAccount, bulkEnable, bulkDisable.
  rewrite !run_await_then_update, !run_await_then_forEach. cbn. split_and!.
  - destruct (net 0 unit (accountsApi.enable accountId)); [|done].
    by apply find_and_assign_ids.
  - destruct (net 0 unit (accountsApi.disable accountId)); [|done].
    by apply find_and_assign_ids.
  - destruct (net 0 unit (accountsApi.bulkEnable accountIds)); [|done].
    by apply fold_find_and_assign_ids.
  - destruct (net 0 unit (accountsApi.bulkDisable accountIds)); [|done].
    by apply fold_find_and_assign_ids.
Qed.

(** X6.  Only loading touches the flag: [deleteAccount], [enableAccount],
    [bulkEnable] and [bulkDelete] end with [isLoading] as they found it, and
    it has that value in every store from which they send a call. *)
Theorem isLoading_untouched (net : Network) (st : Store)
    (accountId : string) (accountIds : list string) :
  flag_untouched st (exec net (deleteAccount accountId) st) ∧
  flag_untouched st (exec net (enableAccount accountId) st) ∧
  flag_untouched st (exec net (bulkEnable accountIds) st) ∧
  flag_untouched st (exec net (bulkDelete accountIds) st).
Proof.
  unfold flag_untouched, exec, enableAccount, bulkEnable.
  rewrite run_deleteAccount, run_bulkDelete, run_await_then_update,
    run_await_then_forEach. cbn. split_and!; try done.
  - by repeat constructor.
  - by destruct (net 0 unit (accountsApi.enable accountId)).
  - by repeat constructor.
  - by destruct (net 0 unit (accountsApi.bulkEnable accountIds)).
  - by repeat constructor.
  - apply Forall_forall. intros s (a & -> & _)%list_elem_of_fmap. reflexivity.
Qed.

(** ** Loading *)

(** X7.  While the [list] call of [loadAccounts] is out, [isLoading] is true
    and the list is still the one from before; that call is the only one
    sent. *)
Theorem loadAccounts_in_flight (net : Network) (st : Store) :
  ∃ s, sent (exec net loadAccounts st) = [s] ∧
       request s = Req accountsApi.list ∧
       isLoading (store_then s) = true ∧
       accounts (store_then s) = accounts st.
Proof.
  unfold exec. rewrite run_loadAccounts. cbn. eexists. split_and!; reflexivity.
Qed.

(** X8.  A fulfilled [loadAccounts] ends in a store that owes nothing to the
    store it started from: the same answer gives the same store from any two
    starts, so loading again under the same answer changes nothing. *)
Theorem loadAccounts_forgets (net net' : Network) (st st' : Store)
    (response : ListResponse) :
  net 0 _ accountsApi.list = Fulfilled response ->
  net' 0 _ accountsApi.list = Fulfilled response ->
  final (exec net loadAccounts st) = final (exec net' loadAccounts st') ∧
  final (exec net' loadAccounts (final (exec net loadAccounts st)))
    = final (exec net loadAccounts st).
Proof.
  intros Hnet Hnet'. unfold exec. rewrite !run_loadAccounts. cbn.
  by rewrite Hnet, Hnet'.
Qed.

Lemma loadAccounts_forgets_witness :
  final (exec (all_fulfilled (BareArray twins)) loadAccounts three_store)
    = final (exec (all_fulfilled (BareArray twins)) loadAccounts empty_store).
Proof.
  apply (loadAccounts_forgets (all_fulfilled (BareArray twins))
           (all_fulfilled (BareArray twins)) three_store empty_store
           (BareArray twins) eq_refl eq_refl).
Defined.

(** ** Deleting *)

Lemma promise_all_fulfilled {X} (settled : list (Settled X)) :
  (∃ xs, promise_all settled = Fulfilled xs) ↔
  Forall (fun s => ∃ x, s = Fulfilled x) settled.
Proof.
  induction settled as [|[x|e] rest IH]; cbn.
  - split; [constructor | by exists []].
  - rewrite Forall_cons, <- IH. split.
    + intros [xs Hxs]. split; [by exists x|].
      destruct (promise_all rest) as [xs'|]; [by exists xs' | done].
    + intros [_ [xs' ->]]. by eexists.
  - split; [by intros [xs ?]|]. intros [[x ?] _]%Forall_cons. done.
Qed.

Lemma promise_all_rejected {X} (settled : list (Settled X)) (e : Error) :
  promise_all settled = Rejected e -> Rejected e ∈ settled.
Proof.
  induction settled as [|[x|e'] rest IH]; cbn; [done|..].
  - destruct (promise_all rest); [done|]. intros [= ->].
    by apply list_elem_of_further, IH.
  - intros [= ->]. apply list_elem_of_here.
Qed.

Lemma filter_all {A} (P : A -> Prop) `{!∀ x, Decision (P x)} (l : list A) :
  Forall P l -> filter P l = l.
Proof.
  induction 1 as [|x l Hx _ IH]; [reflexivity|].
  by rewrite filter_cons, decide_True, IH.
Qed.

Lemma write_accounts_same (st : Store) : write_accounts (accounts st) st = st.
Proof. by destruct st. Qed.

(** X9.  [bulkDelete] is fulfilled exactly when every one of its delete calls
    is fulfilled; when it is rejected, it is with the reason of one of the
    rejected delete calls. *)
Theorem bulkDelete_outcome (net : Network) (st : Store)
    (accountIds : list string) :
  let r := exec net (bulkDelete accountIds) st in
  (outcome r = Fulfilled tt ↔
   ∀ i a, accountIds !! i = Some a ->
          ∃ v, net i _ (accountsApi.delete a) = Fulfilled v) ∧
  (∀ reason, outcome r = Rejected reason ->
     ∃ i a, accountIds !! i = Some a ∧
            net i _ (accountsApi.delete a) = Rejected reason).
Proof.
  unfold exec. rewrite run_bulkDelete. cbn.
  set (answers := imap _ _).
  assert (Hanswers : ∀ s, s ∈ answers ↔
            ∃ i a, accountIds !! i = Some a ∧ s = net i _ (accountsApi.delete a)).
  { intros s. unfold answers. rewrite list_elem_of_lookup. split.
    - intros [i Hi]. apply list_lookup_imap_Some in Hi as (c & Hc & ->).
      change (map accountsApi.delete accountIds)
        with (accountsApi.delete <$> accountIds) in Hc.
      rewrite list_lookup_fmap in Hc.
      destruct (accountIds !! i) as [a|] eqn:Ha; [|discriminate].
      injection Hc as <-. by exists i, a.
    - intros (i & a & Ha & ->). exists i. apply list_lookup_imap_Some.
      exists (accountsApi.delete a). split; [|done].
      change (map accountsApi.delete accountIds)
        with (accountsApi.delete <$> accountIds).
      by rewrite list_lookup_fmap, Ha. }
  pose proof (promise_all_fulfilled answers) as Hall.
  pose proof (promise_all_rejected answers) as Hrej.
  split.
  - split.
    + intros Hout i a Ha.
      assert (Hful : ∃ xs, promise_all answers = Fulfilled xs).
      { destruct (promise_all answers); [by eexists | done]. }
      apply Hall in Hful. rewrite Forall_forall in Hful.
      destruct (Hful (net i _ (accountsApi.delete a))) as [x Hx];
        [apply Hanswers; by exists i, a | by exists x].
    + intros Hevery.
      destruct (proj2 Hall) as [xs ->]; [|done].
      apply Forall_forall. intros s (i & a & Ha & ->)%Hanswers.
      destruct (Hevery i a Ha) as [x Hx]. by exists x.
  - intros reason Hout.
    destruct (promise_all answers) as [xs|e] eqn:Hp; [done|].
    injection Hout as ->.
    destruct (proj1 (Hanswers _) (Hrej _ eq_refl)) as (i & a & Ha & Hs).
    by exists i, a.
Qed.

(** X10.  On the empty id list [bulkDelete] sends nothing, is fulfilled and
    leaves the store as it was; [bulkEnable] and [bulkDisable] still send
    their call, and leave the store as it was whatever the answer. *)
Theorem bulk_on_no_ids (net : Network) (st : Store) :
  exec net (bulkDelete []) st
    = {| outcome := Fulfilled tt; final := st; sent := [] |} ∧
  (final (exec net (bulkEnable []) st) = st ∧
   length (sent (exec net (bulkEnable []) st)) = 1) ∧
  (final (exec net (bulkDisable []) st) = st ∧
   length (sent (exec net (bulkDisable []) st)) = 1).
Proof.
  unfold exec, bulkEnable, bulkDisable.
  rewrite run_bulkDelete, !run_await_then_forEach. cbn.
  rewrite filter_all, !write_accounts_same.
  - split_and!; try reflexivity.
    + by destruct (net 0 unit (accountsApi.bulkEnable [])).
    + by destruct (net 0 unit (accountsApi.bulkDisable [])).
  - apply Forall_forall. intros acc _. apply not_elem_of_nil.
Qed.

(** X11.  Deleting ids that no record carries leaves the store as it was,
    and the delete calls go out all the same: one for [deleteAccount], one
    per entry for [bulkDelete]. *)
Theorem delete_absent_ids (net : Network) (st : Store)
    (accountId : string) (accountIds : list string) :
  ¬ present accountId (accounts st) ->
  Forall (fun a => ¬ present a (accounts st)) accountIds ->
  (final (exec net (deleteAccount accountId) st) = st ∧
   deleted_id <$> sent (exec net (deleteAccount accountId) st) = [Some accountId]) ∧
  (final (exec net (bulkDelete accountIds) st) = st ∧
   deleted_id <$> sent (exec net (bulkDelete accountIds) st)
     = Some <$> accountIds).
Proof.
  intros Habsent Hall. unfold exec. rewrite run_deleteAccount, run_bulkDelete.
  cbn. rewrite !filter_all, !write_accounts_same.
  - split_and!; try reflexivity. by rewrite <- list_fmap_compose.
  - apply Forall_forall. intros acc Hacc Hin.
    rewrite Forall_forall in Hall. apply (Hall _ Hin).
    by apply list_elem_of_fmap_2.
  - apply Forall_forall. intros acc Hacc Heq. apply Habsent.
    rewrite <- Heq. by apply list_elem_of_fmap_2.
Qed.

Lemma delete_absent_ids_witness :
  final (exec (all_rejected "offline") (deleteAccount "z") three_store)
    = three_store ∧
  deleted_id <$> sent (exec (all_rejected "offline") (bulkDelete ["y"; "z"])
                         three_store)
    = [Some "y"; Some "z"].
Proof.
  assert (Habsent : ∀ a, a ≠ "a" -> a ≠ "b" -> a ≠ "c" ->
                         ¬ present a (accounts three_store)).
  { intros a Ha Hb Hc. unfold present. cbn.
    rewrite !elem_of_cons, elem_of_nil. tauto. }
  destruct (delete_absent_ids (all_rejected "offline") three_store "z" ["y"; "z"])
    as ((Hone & _) & (_ & Hbulk)).
  - by apply Habsent.
  - repeat constructor; by apply Habsent.
  - split; [exact Hone | exact Hbulk].
Defined.

(** ** Operations one after the other *)

(** A run of [m] followed by [f]: the run of [m], then, unless [m] was
    rejected, the run of [f] from the store [m] ended in. *)
Lemma run_bindA {A B} (net : Network) (f : A -> Op B) (m : Async A) (n : nat) :
  run net n (bindA m f) =
  let r1 := run net n m in
  match outcome r1 with
  | Fulfilled a =>
      let r2 := run net (n + length (sent r1)) (f a (final r1)) in
      {| outcome := outcome r2; final := final r2; sent := sent r1 ++ sent r2 |}
  | Rejected e => {| outcome := Rejected e; final := final r1; sent := sent r1 |}
  end.
Proof.
  revert n. induction m as [o st|X c st resume IH|X cs st resume IH]; intros n.
  - destruct o as [a|e]; cbn; [|reflexivity].
    rewrite Nat.add_0_r. by destruct (run net n (f a st)).
  - cbn. rewrite IH. cbn zeta.
    destruct (outcome (run net (S n) _)); cbn; [|reflexivity].
    by rewrite Nat.add_succ_r.
  - cbn. rewrite IH. cbn zeta.
    destruct (outcome (run net (n + length cs) _)); cbn; [|reflexivity].
    by rewrite length_app, length_map, Nat.add_assoc, app_assoc.
Qed.

Section Repeats.
Implicit Types (l : list AdminAccount) (a : string).

(** Two assignments under one id are one assignment, of the composition. *)
Lemma find_and_assign_twice a (f g : AdminAccount -> AdminAccount) l :
  (∀ r, id (f r) = id r) ->
  find_and_assign a g (find_and_assign a f l) = find_and_assign a (g ∘ f) l.
Proof.
  intros Hid. induction l as [|r l IH]; [reflexivity|].
  rewrite !(find_and_assign_cons a _ r l).
  destruct (decide (id r = a)) as [Ha|Ha]; rewrite find_and_assign_cons.
  - by rewrite decide_True by by rewrite Hid.
  - by rewrite decide_False, IH.
Qed.

Lemma find_and_assign_ext a (f g : AdminAccount -> AdminAccount) l :
  (∀ r, f r = g r) -> find_and_assign a f l = find_and_assign a g l.
Proof.
  intros Hfg. induction l as [|r l IH]; [reflexivity|].
  rewrite !find_and_assign_cons. destruct (decide (id r = a)); congruence.
Qed.

(** Deleting id by id is deleting the ids at once. *)
Lemma foldl_filter_ids (ids : list string) l :
  foldl (fun l a => filter (fun acc => id acc ≠ a) l) l ids
    = filter (fun acc => id acc ∉ ids) l.
Proof.
  revert l. induction ids as [|a ids IH]; intros l; cbn.
  - symmetry. apply filter_all, Forall_forall. intros acc _. apply not_elem_of_nil.
  - rewrite IH, list_filter_filter. apply list_filter_iff. intros acc.
    rewrite not_elem_of_cons. tauto.
Qed.
End Repeats.

(** One turn of a caller's loop. *)
Lemma run_each_in_turn_cons {A} (net : Network) (x : A) (rest : list A)
    (op : A -> Op unit) (n : nat) (st : Store) :
  run net n (each_in_turn (x :: rest) op st) =
  let r1 := run net n (op x st) in
  match outcome r1 with
  | Fulfilled _ =>
      let r2 := run net (n + length (sent r1)) (each_in_turn rest op (final r1)) in
      {| outcome := outcome r2; final := final r2; sent := sent r1 ++ sent r2 |}
  | Rejected e => {| outcome := Rejected e; final := final r1; sent := sent r1 |}
  end.
Proof. apply (run_bindA net (fun _ => each_in_turn rest op)). Qed.

(** A loop over an operation of the shape "await one call, then change the
    list", on a network that rejects nothing. *)
Lemma run_each_in_turn_await (net : Network) (ids : list string)
    (c : string -> accountsApi.call unit)
    (g : string -> list AdminAccount -> list AdminAccount) (n : nat) (st : Store) :
  never_rejects net ->
  let r := run net n (each_in_turn ids (fun a => await (c a) ;; update_accounts (g a)) st) in
  outcome r = Fulfilled tt ∧
  final r = write_accounts (foldl (fun l a => g a l) (accounts st) ids) st ∧
  request <$> sent r = (fun a => Req (c a)) <$> ids.
Proof.
  intros Hnet. revert n st. induction ids as [|a ids IH]; intros n st; cbn zeta.
  - cbn. by rewrite write_accounts_same.
  - rewrite run_each_in_turn_cons, run_await_then_update. cbn zeta.
    cbn [outcome final sent length].
    destruct (Hnet n unit (c a)) as [v ->].
    destruct (IH (n + 1) (write_accounts (g a (accounts st)) st)) as (Ho & Hf & Hs).
    cbn [outcome final sent]. rewrite Ho, Hf. cbn. by rewrite Hs.
Qed.

(** The same for [deleteAccount], which changes the list first. *)
Lemma run_each_in_turn_delete (net : Network) (ids : list string)
    (n : nat) (st : Store) :
  never_rejects net ->
  let r := run net n (each_in_turn ids deleteAccount st) in
  outcome r = Fulfilled tt ∧
  final r = write_accounts (filter (fun acc => id acc ∉ ids) (accounts st)) st ∧
  request <$> sent r = (fun a => Req (accountsApi.delete a)) <$> ids.
Proof.
  intros Hnet. rewrite <- foldl_filter_ids.
  revert n st. induction ids as [|a ids IH]; intros n st; cbn zeta.
  - cbn. by rewrite write_accounts_same.
  - rewrite run_each_in_turn_cons, run_deleteAccount. cbn zeta.
    cbn [outcome final sent length].
    destruct (Hnet n unit (accountsApi.delete a)) as [v ->].
    destruct (IH (n + 1)
                (write_accounts (filter (fun acc => id acc ≠ a) (accounts st)) st))
      as (Ho & Hf & Hs).
    cbn [outcome final sent]. rewrite Ho, Hf. cbn. by rewrite Hs.
Qed.

Lemma all_fulfilled_never_rejects (response : ListResponse) :
  never_rejects (all_fulfilled response).
Proof. intros n X c. destruct c; by eexists. Qed.

(** X12.  [bulkDelete] of a single id runs exactly as [deleteAccount] of that
    id: the same call from the same store, the same final store, the same
    outcome. *)
Theorem bulkDelete_single (net : Network) (st : Store) (accountId : string) :
  exec net (bulkDelete [accountId]) st = exec net (deleteAccount accountId) st.
Proof.
  unfold exec. rewrite run_bulkDelete, run_deleteAccount. cbn.
  rewrite (list_filter_iff (fun acc => id acc ∉ [accountId])
             (fun acc => id acc ≠ accountId)).
  - by destruct (net 0 unit (accountsApi.delete accountId)) as [[]|e].
  - intros acc. rewrite not_elem_of_cons, elem_of_nil. tauto.
Qed.

(** X13.  Where [bulkDelete] leaves the store depends on the ids only as a
    set, whatever the network answers: two batches end as their union in one
    batch, the order of the ids does not matter, and a batch repeated changes
    nothing more. *)
Theorem bulkDelete_batches (net1 net2 net : Network) (st : Store)
    (ids1 ids2 : list string) :
  final (exec net2 (bulkDelete ids2) (final (exec net1 (bulkDelete ids1) st)))
    = final (exec net (bulkDelete (ids1 ++ ids2)) st) ∧
  final (exec net (bulkDelete (ids1 ++ ids2)) st)
    = final (exec net (bulkDelete (ids2 ++ ids1)) st) ∧
  final (exec net2 (bulkDelete ids1) (final (exec net1 (bulkDelete ids1) st)))
    = final (exec net1 (bulkDelete ids1) st).
Proof.
  unfold exec. rewrite !run_bulkDelete. cbn. unfold write_accounts. cbn.
  split_and!; f_equal.
  - rewrite list_filter_filter. apply list_filter_iff. intros acc.
    rewrite not_elem_of_app. tauto.
  - apply list_filter_iff. intros acc. rewrite !not_elem_of_app. tauto.
  - rewrite list_filter_filter. apply list_filter_iff. tauto.
Qed.

(** X14.  On a network that rejects nothing, a bulk operation ends in the
    store a caller reaches by looping over the singular operation, id by id;
    for deletion the same requests go out, in the same order. *)
Theorem bulk_as_one_by_one (net : Network) (st : Store) (accountIds : list string) :
  never_rejects net ->
  (final (exec net (each_in_turn accountIds deleteAccount) st)
     = final (exec net (bulkDelete accountIds) st) ∧
   request <$> sent (exec net (each_in_turn accountIds deleteAccount) st)
     = request <$> sent (exec net (bulkDelete accountIds) st)) ∧
  final (exec net (each_in_turn accountIds enableAccount) st)
    = final (exec net (bulkEnable accountIds) st) ∧
  final (exec net (each_in_turn accountIds disableAccount) st)
    = final (exec net (bulkDisable accountIds) st).
Proof.
  intros Hnet. unfold exec.
  destruct (run_each_in_turn_delete net accountIds 0 st Hnet) as (_ & Hdf & Hds).
  destruct (run_each_in_turn_await net accountIds accountsApi.enable
              (fun a => find_and_assign a enable_assignments) 0 st Hnet)
    as (_ & Hef & _).
  destruct (run_each_in_turn_await net accountIds accountsApi.disable
              (fun a => find_and_assign a (assign_disabled true)) 0 st Hnet)
    as (_ & Hbf & _).
  unfold bulkEnable, bulkDisable.
  rewrite run_bulkDelete, !run_await_then_forEach. cbn.
  destruct (Hnet 0 unit (accountsApi.bulkEnable accountIds)) as [ve ->].
  destruct (Hnet 0 unit (accountsApi.bulkDisable accountIds)) as [vd ->].
  split_and!.
  - exact Hdf.
  - rewrite Hds, <- list_fmap_compose. reflexivity.
  - exact Hef.
  - exact Hbf.
Qed.

Lemma bulk_as_one_by_one_witness :
  final (exec (all_fulfilled (BareArray [])) (each_in_turn ["c"; "a"] enableAccount)
           three_store)
    = final (exec (all_fulfilled (BareArray [])) (bulkEnable ["c"; "a"]) three_store).
Proof.
  apply (bulk_as_one_by_one (all_fulfilled (BareArray [])) three_store ["c"; "a"]
           (all_fulfilled_never_rejects (BareArray []))).
Defined.

(** X15.  Repeating an operation changes nothing more.  A second
    [deleteAccount] of the same id ends in the store the first one left,
    whatever the network answers to either.  A second [enableAccount] after
    one whose call was fulfilled ends in the store that one left, whatever
    the second is answered, and likewise for [disableAccount]. *)
Theorem repeated_operation (net net' : Network) (st : Store) (accountId : string) :
  final (exec net' (deleteAccount accountId)
           (final (exec net (deleteAccount accountId) st)))
    = final (exec net (deleteAccount accountId) st) ∧
  (∀ v, net 0 _ (accountsApi.enable accountId) = Fulfilled v ->
     final (exec net' (enableAccount accountId)
              (final (exec net (enableAccount accountId) st)))
       = final (exec net (enableAccount accountId) st)) ∧
  (∀ v, net 0 _ (accountsApi.disable accountId) = Fulfilled v ->
     final (exec net' (disableAccount accountId)
              (final (exec net (disableAccount accountId) st)))
       = final (exec net (disableAccount accountId) st)).
Proof.
  unfold exec, enableAccount, disableAccount.
  rewrite !run_deleteAccount, !run_await_then_update. cbn.
  unfold write_accounts. cbn. split_and!.
  - f_equal. rewrite list_filter_filter. apply list_filter_iff. tauto.
  - intros v ->. cbn.
    destruct (net' 0 unit (accountsApi.enable accountId)); [|done].
    cbn. f_equal. rewrite find_and_assign_twice by done.
    by apply find_and_assign_ext.
  - intros v ->. cbn.
    destruct (net' 0 unit (accountsApi.disable accountId)); [|done].
    cbn. f_equal. rewrite find_and_assign_twice by done.
    by apply find_and_assign_ext.
Qed.

(** Every delete call rejected, and an enable repeated with its second call
    rejected. *)
Lemma repeated_operation_witness :
  final (exec (all_rejected "offline") (deleteAccount "a")
           (final (exec (all_rejected "offline") (deleteAccount "a") three_store)))
    = final (exec (all_rejected "offline") (deleteAccount "a") three_store) ∧
  final (exec (all_rejected "offline") (enableAccount "a")
           (final (exec (all_fulfilled (BareArray [])) (enableAccount "a")
                     three_store)))
    = final (exec (all_fulfilled (BareArray [])) (enableAccount "a") three_store).
Proof.
  split.
  - apply (repeated_operation (all_rejected "offline") (all_rejected "offline")
             three_store "a").
  - apply (proj1 (proj2 (repeated_operation (all_fulfilled (BareArray []))
                           (all_rejected "offline") three_store "a")) tt eq_refl).
Defined.

(** X16.  A fulfilled [enableAccount] ends in the same store whether or not
    the account was disabled through [disableAccount] just before. *)
Theorem enable_after_disable (net net' : Network) (st : Store)
    (accountId : string) (v : unit) :
  net' 0 _ (accountsApi.enable accountId) = Fulfilled v ->
  final (exec net' (enableAccount accountId)
           (final (exec net (disableAccount accountId) st)))
    = final (exec net' (enableAccount accountId) st).
Proof.
  intros He. unfold exec, enableAccount, disableAccount.
  rewrite !run_await_then_update, He. cbn.
  destruct (net 0 unit (accountsApi.disable accountId)); [|done].
  unfold write_accounts. cbn. f_equal.
  rewrite find_and_assign_twice by done. by apply find_and_assign_ext.
Qed.

Lemma enable_after_disable_witness :
  final (exec (all_fulfilled (BareArray [])) (enableAccount "b")
           (final (exec (all_fulfilled (BareArray [])) (disableAccount "b")
                     three_store)))
    = final (exec (all_fulfilled (BareArray [])) (enableAccount "b") three_store).
Proof.
  apply (enable_after_disable (all_fulfilled (BareArray []))
           (all_fulfilled (BareArray [])) three_store "b" tt eq_refl).
Defined.
